(** * opentelemetry.propagators: the global text-map propagator registry

    A shallow embedding of [opentelemetry/propagators/__init__.py]: the
    module body that builds the initial [CompositeHTTPPropagator] from the
    configured entry-point names, the module-level [extract] and [inject],
    and the accessors [get_global_textmap] / [set_global_textmap].

    Python objects live in a heap and are named by their address, so that
    "the same object" is equality of addresses.  Code that can raise runs
    in a state-and-exception monad.  The modules the file imports
    ([configuration], [composite], [textmap]) are modelled from the
    specification, where marked. *)

From stdpp Require Import base option list gmap strings.

(** ** Exceptions and results *)

Module Py.

(** The exception classes the module can meet.  [except Exception] matches
    the classes derived from [Exception]; [KeyboardInterrupt], [SystemExit]
    and [GeneratorExit] derive from [BaseException] only. *)
Inductive exception : Type :=
| StopIteration
| ImportError
| AttributeError
| RecursionError
| KeyboardInterrupt
| SystemExit
| GeneratorExit
| UserError (cls : string) (derives_Exception : bool).

Definition isinstance_Exception (e : exception) : bool :=
  match e with
  | StopIteration | ImportError | AttributeError | RecursionError => true
  | KeyboardInterrupt | SystemExit | GeneratorExit => false
  | UserError _ b => b
  end.

Inductive result (A : Type) : Type :=
| Return (a : A)
| Raise (e : exception).
Arguments Return {A} a.
Arguments Raise {A} e.

Definition is_Return {A} (r : result A) : Prop :=
  match r with Return _ => True | Raise _ => False end.

(** Computations over a state [S] that return an [A] or raise. *)
Definition M (S A : Type) : Type := S → result A * S.

Definition ret {S A} (a : A) : M S A := λ s, (Return a, s).
Definition raise {S A} (e : exception) : M S A := λ s, (Raise e, s).
Definition bind {S A B} (m : M S A) (k : A → M S B) : M S B :=
  λ s, match m s with
       | (Return a, s') => k a s'
       | (Raise e, s') => (Raise e, s')
       end.
Definition lift {S A} (r : result A) : M S A := λ s, (r, s).
Definition gets {S A} (f : S → A) : M S A := λ s, (Return (f s), s).
Definition modify {S} (f : S → S) : M S unit := λ s, (Return tt, f s).

(** [try: body / except Exception: handler e]: the handler runs only for
    the exceptions that derive from [Exception]; the others pass through. *)
Definition try_except_Exception {S A}
    (body : M S A) (handler : exception → M S A) : M S A :=
  λ s, match body s with
       | (Return a, s') => (Return a, s')
       | (Raise e, s') =>
           if isinstance_Exception e then handler e s' else (Raise e, s')
       end.

(** [next(it)] on a fresh iterator: its first element, or [StopIteration]. *)
Definition next {S A} (it : list A) : M S A :=
  match it with
  | [] => raise StopIteration
  | x :: _ => ret x
  end.

(** [s.split(sep)] for a one-character separator: cuts at every occurrence
    of [sep]; nothing is stripped and empty pieces are kept, so the result
    always has one piece more than [s] has separators. *)
Fixpoint str_split (sep : Ascii.ascii) (s : string) : list string :=
  match s with
  | EmptyString => [EmptyString]
  | String c s' =>
      if Ascii.eqb c sep then EmptyString :: str_split sep s'
      else match str_split sep s' with
           | w :: ws => String c w :: ws
           | [] => [String c EmptyString]
           end
  end.

(** [sep.join(pieces)] *)
Fixpoint str_join (sep : Ascii.ascii) (pieces : list string) : string :=
  match pieces with
  | [] => EmptyString
  | [w] => w
  | w :: ws => String.append w (String sep (str_join sep ws))
  end.

Fixpoint str_count (c : Ascii.ascii) (s : string) : nat :=
  match s with
  | EmptyString => 0
  | String a s' => (if Ascii.eqb a c then 1 else 0) + str_count c s'
  end.

Fixpoint str_contains (c : Ascii.ascii) (s : string) : bool :=
  match s with
  | EmptyString => false
  | String a s' => Ascii.eqb a c || str_contains c s'
  end.

End Py.
Export Py.

Notation "'let*' x := m 'in' k" := (bind m (λ x, k))
  (at level 10, x name, m at level 100, k at level 200, only parsing).
Notation "m ;; k" := (bind m (λ _, k))
  (at level 100, k at level 200, right associativity, only parsing).

(** ** Contexts, carriers and propagator objects *)

(** Modelled from the spec: [opentelemetry.context.context.Context], whose
    code is not embedded here, is an immutable mapping from string keys to
    values. *)
Abbreviation Context := (gmap string string).
(** A text-map carrier, e.g. a set of HTTP headers. *)
Abbreviation Carrier := (gmap string (list string)).

(** Modelled from the spec: [textmap.Getter] and [textmap.Setter], whose
    code is not embedded here.  A getter gives the values stored under a
    key (none when the key is absent); a setter writes one value under a
    key, mutating the carrier. *)
Definition Getter : Type := Carrier → string → list string.
Definition Setter : Type := Carrier → string → string → Carrier.

(** Addresses of heap objects. *)
Definition loc : Type := nat.

(** Modelled from the spec: the contract of [textmap.TextMapPropagator],
    whose code is not embedded here: the keys an instance owns, its
    [extract] and its [inject].  [inject] mutates the caller's carrier,
    which is the state it runs on. *)
Record TextMapPropagator : Type := {
  fields : list string;
  tmp_extract : Getter → Carrier → option Context → result Context;
  tmp_inject : Setter → option Context → M Carrier unit;
}.

Inductive object : Type :=
| Instance (cls : string) (impl : TextMapPropagator)
| CompositeHTTPPropagator (_propagators : list loc)
| Other (repr : string).

(** ** The world outside the module *)

(** Calls made into [pkg_resources] and into plug-in code, oldest first. *)
Inductive call : Type :=
| call_iter_entry_points (group name : string)
| call_load (target : string)
| call_class (qualname : string).

(** A record handed to the module's logger. *)
Record LogRecord : Type := {
  levelname : string;
  msg : string;
  exc_info : option exception;
}.

Record World : Type := {
  heap : list object;
  calls : list call;
  log : list LogRecord;
  recursion_limit : nat;
}.

Definition set_heap (h : list object) (w : World) : World :=
  {| heap := h; calls := calls w; log := log w;
     recursion_limit := recursion_limit w |}.

(** Allocates a new object at the next free address. *)
Definition alloc (o : object) : M World loc :=
  λ w, (Return (length (heap w)), set_heap (heap w ++ [o]) w).

Definition record_call (c : call) : M World unit :=
  modify (λ w, {| heap := heap w; calls := calls w ++ [c]; log := log w;
                  recursion_limit := recursion_limit w |}).

(** [logger.exception(msg)] inside a handler: an ERROR record that carries
    the exception being handled. *)
Definition logger_exception (m : string) (e : exception) : M World unit :=
  modify (λ w, {| heap := heap w; calls := calls w;
                  log := log w ++ [{| levelname := "ERROR"; msg := m;
                                      exc_info := Some e |}];
                  recursion_limit := recursion_limit w |}).

(** *** Entry points (pkg_resources) *)

(** A class object: calling it with no argument builds an instance or
    raises. *)
Record PyClass : Type := {
  qualname : string;
  construct : result TextMapPropagator;
}.

(** An advertised entry point: [ep_load] is the outcome of [load()], which
    imports the target and returns the class it names. *)
Record EntryPoint : Type := {
  ep_group : string;
  ep_name : string;
  ep_target : string;
  ep_load : result PyClass;
}.

(** The entry points of all installed distributions, in iteration order. *)
Definition WorkingSet : Type := list EntryPoint.

Definition ep_matches (group name : string) (ep : EntryPoint) : bool :=
  bool_decide (ep_group ep = group) && bool_decide (name = ep_name ep).

(** [iter_entry_points(group, name)]: the entries of [group] whose name is
    equal to [name]. *)
Definition iter_entry_points (ws : WorkingSet) (group name : string)
  : list EntryPoint :=
  List.filter (ep_matches group name) ws.

(** [ep.load()] and [cls()] *)
Definition EntryPoint_load (ep : EntryPoint) : M World PyClass :=
  record_call (call_load (ep_target ep)) ;; lift (ep_load ep).

Definition PyClass_call (cls : PyClass) : M World loc :=
  record_call (call_class (qualname cls)) ;;
  let* impl := lift (construct cls) in
  alloc (Instance (qualname cls) impl).

(** *** Configuration *)

(** Modelled from the spec: [opentelemetry.configuration.Configuration],
    whose code is not embedded here.  A configuration value is a string
    when one was supplied explicitly; [get] falls back on the default
    otherwise. *)
Abbreviation Configuration := (gmap string string).

Definition Configuration_get (cfg : Configuration) (key default : string)
  : string :=
  match cfg !! key with
  | Some v => v
  | None => default
  end.

(** ** The module *)

(** The separator given to [split], and the entry-point group. *)
Definition comma : Ascii.ascii := Ascii.ascii_of_nat 44.
Definition group : string := "opentelemetry_propagator".

(** The globals of the module once its body has run.  The accessors are
    defined after the assignment of line 142, so whenever they can be
    called [_HTTP_TEXT_FORMAT] is bound. *)
Record Module : Type := { _HTTP_TEXT_FORMAT : loc }.

Section Module.

Variable cfg : Configuration.
Variable ws : WorkingSet.

(** [next(iter_entry_points(group, propagator)).load()()] *)
Definition load_propagator (propagator : string) : M World loc :=
  record_call (call_iter_entry_points group propagator) ;;
  let* ep := next (iter_entry_points ws group propagator) in
  let* cls := EntryPoint_load ep in
  PyClass_call cls.

(** The [for] loop: one [append] per name, in order. *)
Fixpoint for_propagator (names : list string) (propagators : list loc)
  : M World (list loc) :=
  match names with
  | [] => ret propagators
  | propagator :: names' =>
      let* p := load_propagator propagator in
      for_propagator names' (propagators ++ [p])
  end.

Definition configured_names : list string :=
  str_split comma (Configuration_get cfg "PROPAGATORS" "tracecontext,baggage").

(** Modelled from the spec: the constructor of
    [composite.CompositeHTTPPropagator], whose code is not embedded here,
    stores the ordered sequence it is given. *)
Definition new_CompositeHTTPPropagator (propagators : list loc) : M World loc :=
  alloc (CompositeHTTPPropagator propagators).

(** The module body, lines 124 to 142. *)
Definition module_body : M World Module :=
  let* propagators :=
    try_except_Exception
      (for_propagator configured_names [])
      (λ e, logger_exception "Failed to load configured propagators" e ;;
            raise e) in
  let* c := new_CompositeHTTPPropagator propagators in
  ret {| _HTTP_TEXT_FORMAT := c |}.

End Module.

(** ** Method calls on propagator objects *)

Section Dispatch.

Variable h : list object.

(** Modelled from the spec: [CompositeHTTPPropagator.extract], whose code
    is not embedded here, folds left to right, each member receiving the
    context returned by the one before it; a member that raises aborts the
    fold. *)
Fixpoint Composite_extract
    (member : loc → option Context → result (option Context))
    (ps : list loc) (context : option Context) : result (option Context) :=
  match ps with
  | [] => Return context
  | p :: ps' =>
      match member p context with
      | Return context' => Composite_extract member ps' context'
      | Raise e => Raise e
      end
  end.

(** Modelled from the spec: [CompositeHTTPPropagator.inject], whose code is
    not embedded here, calls the members in order with the same context
    and the same carrier; a member that raises aborts the iteration. *)
Fixpoint Composite_inject (member : loc → M Carrier unit) (ps : list loc)
  : M Carrier unit :=
  match ps with
  | [] => ret tt
  | p :: ps' => member p ;; Composite_inject member ps'
  end.

(** [self.extract(get_from_carrier, carrier, context)], looked up on the
    object at [self].  [depth] is the number of frames left before Python
    gives up with [RecursionError]. *)
Fixpoint call_extract (depth : nat) (self : loc)
    (get_from_carrier : Getter) (carrier : Carrier)
    (context : option Context) : result (option Context) :=
  match depth with
  | 0 => Raise RecursionError
  | S d =>
      match h !! self with
      | Some (Instance _ impl) =>
          match tmp_extract impl get_from_carrier carrier context with
          | Return c => Return (Some c)
          | Raise e => Raise e
          end
      | Some (CompositeHTTPPropagator ps) =>
          Composite_extract
            (λ p ctx, call_extract d p get_from_carrier carrier ctx)
            ps context
      | Some (Other _) | None => Raise AttributeError
      end
  end.

(** [self.inject(set_in_carrier, carrier, context)] *)
Fixpoint call_inject (depth : nat) (self : loc)
    (set_in_carrier : Setter) (context : option Context) : M Carrier unit :=
  match depth with
  | 0 => raise RecursionError
  | S d =>
      match h !! self with
      | Some (Instance _ impl) => tmp_inject impl set_in_carrier context
      | Some (CompositeHTTPPropagator ps) =>
          Composite_inject (λ p, call_inject d p set_in_carrier context) ps
      | Some (Other _) | None => raise AttributeError
      end
  end.

End Dispatch.

(** ** The functions of the module *)

(** What the functions run on: the module globals and the world. *)
Definition State : Type := Module * World.

Definition get_global_textmap : M State loc :=
  gets (λ s, _HTTP_TEXT_FORMAT (fst s)).

Definition set_global_textmap (http_text_format : loc) : M State unit :=
  modify (λ s, ({| _HTTP_TEXT_FORMAT := http_text_format |}, snd s)).

Definition extract (get_from_carrier : Getter) (carrier : Carrier)
    (context : option Context) : M State (option Context) :=
  let* p := get_global_textmap in
  λ s, (call_extract (heap (snd s)) (recursion_limit (snd s)) p
          get_from_carrier carrier context, s).

(** [inject] also runs on the caller's carrier, which the setter mutates. *)
Definition on_module {A} (m : M State A) : M (State * Carrier) A :=
  λ sc, let (r, s') := m (fst sc) in (r, (s', snd sc)).

Definition inject (set_in_carrier : Setter) (context : option Context)
  : M (State * Carrier) unit :=
  let* p := on_module get_global_textmap in
  (λ sc, let (r, c') := call_inject (heap (snd (fst sc)))
                          (recursion_limit (snd (fst sc))) p
                          set_in_carrier context (snd sc) in
         (r, (fst sc, c'))) ;;
  ret tt.

(** ** Sample plug-ins and worlds *)

Module Samples.

Definition dict_getter : Getter := λ carrier key, default [] (carrier !! key).
Definition dict_setter : Setter := λ carrier key value, <[key := [value]]> carrier.

(** A propagator owning the single carrier key [key]. *)
Definition stub (key : string) : TextMapPropagator :=
  {| fields := [key];
     tmp_extract := λ g carrier context,
       let ctx := default ∅ context in
       match g carrier key with
       | [] => Return ctx
       | v :: _ => Return (<[key := v]> ctx)
       end;
     tmp_inject := λ set context carrier,
       match default ∅ context !! key with
       | Some v => (Return tt, set carrier key v)
       | None => (Return tt, carrier)
       end |}.

Definition class_of (name : string) (r : result TextMapPropagator) : PyClass :=
  {| qualname := name; construct := r |}.

Definition entry (name target : string) (r : result PyClass) : EntryPoint :=
  {| ep_group := group; ep_name := name; ep_target := target; ep_load := r |}.

Definition TraceContext : PyClass :=
  class_of "TraceContextTextMapPropagator" (Return (stub "traceparent")).
Definition Baggage : PyClass :=
  class_of "BaggagePropagator" (Return (stub "baggage")).
Definition B3 : PyClass := class_of "B3Format" (Return (stub "b3")).
Definition Interrupted : PyClass :=
  class_of "Interrupted" (Raise KeyboardInterrupt).
Definition Broken : PyClass :=
  class_of "Broken" (Raise (UserError "ValueError" true)).

(** The entry points of a plain installation, with a second distribution
    that advertises another class under the name [baggage]. *)
Definition installed : WorkingSet :=
  [ entry "tracecontext" "opentelemetry.trace.propagation.tracecontext" (Return TraceContext);
    entry "baggage" "opentelemetry.baggage.propagation" (Return Baggage);
    entry "b3" "opentelemetry.sdk.trace.propagation.b3_format" (Return B3);
    entry "baggage" "vendor.baggage" (Return Broken) ].

Definition interrupted : WorkingSet :=
  [ entry "tracecontext" "vendor.interrupted" (Return Interrupted);
    entry "baggage" "opentelemetry.baggage.propagation" (Return Baggage) ].

(** The same installation without the second distribution. *)
Definition plain : WorkingSet := take 3 installed.

(** A value with a blank after the comma, and the empty value. *)
Definition blank_after_comma : Configuration := {["PROPAGATORS" := "b3, baggage"]}.

(** An entry advertised in another group, and a plug-in nobody configures. *)
Definition crowded : WorkingSet :=
  {| ep_group := "console_scripts"; ep_name := "baggage";
     ep_target := "tools.cli"; ep_load := Raise ImportError |} ::
  entry "jaeger" "vendor.jaeger" (Return Broken) :: installed.

Definition fresh_world : World :=
  {| heap := []; calls := []; log := []; recursion_limit := 1000 |}.

(** Two stub propagators [A] (key [a]) and [B] (key [b]) behind one
    composite. *)
Definition ab_heap : list object :=
  [ Instance "A" (stub "a"); Instance "B" (stub "b");
    CompositeHTTPPropagator [0; 1] ].

(** The same heap with the object [None] added. *)
Definition with_none : World :=
  {| heap := ab_heap ++ [Other "None"]; calls := []; log := [];
     recursion_limit := 1000 |}.




Definition ab_state : State :=
  ({| _HTTP_TEXT_FORMAT := 2 |},
   {| heap := ab_heap; calls := []; log := []; recursion_limit := 1000 |}).

End Samples.

(** ** The module body in closed form *)

Section Outcome.

Variable ws : WorkingSet.

(** What [next(iter_entry_points(group, name)).load()()] comes to for one
    name, leaving the world aside: the class and the behaviour of its new
    instance, or the exception raised on the way. *)
Definition resolve (name : string) : result (PyClass * TextMapPropagator) :=
  match iter_entry_points ws group name with
  | [] => Raise StopIteration
  | ep :: _ =>
      match ep_load ep with
      | Raise e => Raise e
      | Return cls =>
          match construct cls with
          | Raise e => Raise e
          | Return impl => Return (cls, impl)
          end
      end
  end.

(** The calls it makes. *)
Definition calls_of (name : string) : list call :=
  call_iter_entry_points group name ::
  match iter_entry_points ws group name with
  | [] => []
  | ep :: _ =>
      call_load (ep_target ep) ::
      match ep_load ep with
      | Raise _ => []
      | Return cls => [call_class (qualname cls)]
      end
  end.

(** The loop over a list of names: the instances built, the calls made and
    the exception that stopped it, if any. *)
Fixpoint outcome (names : list string)
  : list object * list call * option exception :=
  match names with
  | [] => ([], [], None)
  | name :: names' =>
      match resolve name with
      | Raise e => ([], calls_of name, Some e)
      | Return (cls, impl) =>
          let '(os, cs, r) := outcome names' in
          (Instance (qualname cls) impl :: os, calls_of name ++ cs, r)
      end
  end.

(** A name for which no instance can be built: the lookup finds no entry,
    [load()] raises, or the constructor raises. *)
Definition unavailable (name : string) : Prop :=
  iter_entry_points ws group name = [] ∨
  ∃ ep rest e, iter_entry_points ws group name = ep :: rest ∧
    (ep_load ep = Raise e ∨
     ∃ cls, ep_load ep = Return cls ∧ construct cls = Raise e).

(** The instance built for a name: the first entry found is loaded and the
    class it yields is called. *)
Definition built_from (name : string) (o : object) : Prop :=
  ∃ ep rest cls impl,
    iter_entry_points ws group name = ep :: rest ∧
    ep_load ep = Return cls ∧ construct cls = Return impl ∧
    o = Instance (qualname cls) impl.

End Outcome.

Definition is_Instance (o : object) : Prop :=
  match o with Instance _ _ => True | _ => False end.

(** The record left by [logger.exception] in the handler. *)
Definition failure_record (e : exception) : LogRecord :=
  {| levelname := "ERROR"; msg := "Failed to load configured propagators";
     exc_info := Some e |}.

(** The names handed to [iter_entry_points], in call order. *)
Definition lookups (cs : list call) : list string :=
  omap (λ c, match c with
             | call_iter_entry_points _ name => Some name
             | _ => None
             end) cs.

(** ** Vocabulary of the statements *)

(** The contract of a member propagator on a miss: when the getter finds
    none of the keys it owns in the carrier, [extract] hands back the
    context it was given. *)
Definition tolerates_absent (impl : TextMapPropagator) : Prop :=
  ∀ (g : Getter) (carrier : Carrier) (ctx : Context),
    (∀ key, key ∈ fields impl → g carrier key = []) →
    tmp_extract impl g carrier (Some ctx) = Return ctx.

(** What callers do with the module between two overrides. *)
Inductive request : Type :=
| req_get_global_textmap
| req_extract (get_from_carrier : Getter) (carrier : Carrier)
    (context : option Context)
| req_inject (set_in_carrier : Setter) (carrier : Carrier)
    (context : option Context).

(** The state a request leaves behind. *)
Definition serve (s : State) (r : request) : State :=
  match r with
  | req_get_global_textmap => snd (get_global_textmap s)
  | req_extract g carrier context => snd (extract g carrier context s)
  | req_inject set carrier context => fst (snd (inject set context (s, carrier)))
  end.

(** What happens to the module over time: an override, or a request. *)
Inductive event : Type :=
| ev_set_global_textmap (http_text_format : loc)
| ev_request (r : request).

Definition step (s : State) (e : event) : State :=
  match e with
  | ev_set_global_textmap p => snd (set_global_textmap p s)
  | ev_request r => serve s r
  end.

(** The argument of the latest override in a history, or [initial] when
    the history has none. *)
Definition latest_override (initial : loc) (history : list event) : loc :=
  foldl (λ current e, match e with
                      | ev_set_global_textmap p => p
                      | ev_request _ => current
                      end) initial history.

(** The entry points the module body can ask for under [cfg]: those of the
    propagator group whose name is one of the configured names. *)
Definition reachable (cfg : Configuration) (ep : EntryPoint) : bool :=
  bool_decide (ep_group ep = group) &&
  bool_decide (ep_name ep ∈ configured_names cfg).

(** A name whose first entry builds an instance that keeps quiet on
    [carrier]: it honours the contract on a miss and the getter finds none
    of its keys. *)
Definition quiet (ws : WorkingSet) (g : Getter) (carrier : Carrier)
    (name : string) : Prop :=
  ∃ cls impl, resolve ws name = Return (cls, impl) ∧
    tolerates_absent impl ∧
    ∀ key, key ∈ fields impl → g carrier key = [].

(** The entry that [next] takes for a name, if the lookup finds any, and
    the class its [load()] returns, if it returns. *)
Definition first_entry (ws : WorkingSet) (name : string) : option EntryPoint :=
  head (iter_entry_points ws group name).

Definition first_class (ws : WorkingSet) (name : string) : option PyClass :=
  match first_entry ws name with
  | Some ep => match ep_load ep with
               | Return cls => Some cls
               | Raise _ => None
               end
  | None => None
  end.

(** The targets of the entry points loaded and the classes called, in
    call order. *)
Definition loads (cs : list call) : list string :=
  omap (λ c, match c with call_load target => Some target | _ => None end) cs.

Definition instantiations (cs : list call) : list string :=
  omap (λ c, match c with call_class q => Some q | _ => None end) cs.


(** ** Facts about the runtime model *)

Lemma load_propagator_eq ws name w :
  load_propagator ws name w =
  match resolve ws name with
  | Return (cls, impl) =>
      (Return (length (heap w)),
       {| heap := heap w ++ [Instance (qualname cls) impl];
          calls := calls w ++ calls_of ws name; log := log w;
          recursion_limit := recursion_limit w |})
  | Raise e =>
      (Raise e,
       {| heap := heap w; calls := calls w ++ calls_of ws name; log := log w;
          recursion_limit := recursion_limit w |})
  end.
Proof.
  unfold load_propagator, resolve, calls_of, EntryPoint_load, PyClass_call.
  destruct (iter_entry_points ws group name) as [|ep rest]; [done|].
  cbn. destruct (ep_load ep) as [cls|e]; cbn.
  - destruct (construct cls) as [impl|e]; cbn;
      by rewrite <- !(assoc_L (++)).
  - by rewrite <- !(assoc_L (++)).
Qed.

Lemma for_propagator_eq ws names : ∀ propagators w,
  for_propagator ws names propagators w =
  let '(os, cs, r) := outcome ws names in
  (match r with
   | None => Return (propagators ++ seq (length (heap w)) (length os))
   | Some e => Raise e
   end,
   {| heap := heap w ++ os; calls := calls w ++ cs; log := log w;
      recursion_limit := recursion_limit w |}).
Proof.
  induction names as [|name names IH]; intros ps w; cbn.
  - rewrite !app_nil_r. by destruct w.
  - unfold bind at 1. rewrite load_propagator_eq.
    destruct (resolve ws name) as [[cls impl]|e]; [|by rewrite app_nil_r].
    rewrite IH. destruct (outcome ws names) as [[os cs] r]. cbn.
    rewrite length_app, <- !(assoc_L (++)). cbn.
    by rewrite Nat.add_1_r.
Qed.

Lemma module_body_eq cfg ws w :
  module_body cfg ws w =
  let '(os, cs, r) := outcome ws (configured_names cfg) in
  match r with
  | None =>
      (Return {| _HTTP_TEXT_FORMAT := length (heap w) + length os |},
       {| heap := heap w ++ os ++
                  [CompositeHTTPPropagator (seq (length (heap w)) (length os))];
          calls := calls w ++ cs; log := log w;
          recursion_limit := recursion_limit w |})
  | Some e =>
      (Raise e,
       {| heap := heap w ++ os; calls := calls w ++ cs;
          log := if isinstance_Exception e
                 then log w ++ [failure_record e] else log w;
          recursion_limit := recursion_limit w |})
  end.
Proof.
  unfold module_body, try_except_Exception, bind at 1.
  rewrite for_propagator_eq.
  destruct (outcome ws (configured_names cfg)) as [[os cs] [e|]]; cbn.
  - by destruct (isinstance_Exception e).
  - by rewrite length_app, <- (assoc_L (++)).
Qed.

(** ** Facts about the loop *)

Section OutcomeFacts.

Variable ws : WorkingSet.

Lemma resolve_Raise name :
  unavailable ws name ↔ ∃ e, resolve ws name = Raise e.
Proof.
  unfold unavailable, resolve. split.
  - intros [->|(ep & rest & e & -> & [->|(cls & -> & ->)])]; eauto.
  - intros [e He].
    destruct (iter_entry_points ws group name) as [|ep rest]; [by left|].
    right. exists ep, rest.
    destruct (ep_load ep) as [cls|e'] eqn:Hl; [|by eauto].
    destruct (construct cls) as [impl|e''] eqn:Hc; [done|].
    exists e''. eauto.
Qed.

Lemma resolve_Return name cls impl :
  resolve ws name = Return (cls, impl) ↔
  ∃ ep rest, iter_entry_points ws group name = ep :: rest ∧
    ep_load ep = Return cls ∧ construct cls = Return impl.
Proof.
  unfold resolve. split.
  - destruct (iter_entry_points ws group name) as [|ep rest]; [done|].
    destruct (ep_load ep) as [cls'|] eqn:Hl; [|done].
    destruct (construct cls') as [impl'|] eqn:Hc; [|done].
    intros [= -> ->]. eauto.
  - intros (ep & rest & -> & -> & ->). done.
Qed.

Lemma available_resolve name :
  (∃ o, built_from ws name o) ↔ ∃ ci, resolve ws name = Return ci.
Proof.
  split.
  - intros (o & ep & rest & cls & impl & Hi & Hl & Hc & _).
    exists (cls, impl). apply resolve_Return; eauto.
  - intros [[cls impl] (ep & rest & ? & ? & ?)%resolve_Return].
    exists (Instance (qualname cls) impl), ep, rest, cls, impl. eauto.
Qed.

Lemma available_not_unavailable name :
  (∃ o, built_from ws name o) → ¬ unavailable ws name.
Proof.
  intros [ci Hr]%available_resolve [e He]%resolve_Raise. congruence.
Qed.

Lemma outcome_instances names :
  Forall is_Instance (outcome ws names).1.1.
Proof.
  induction names as [|name names IH]; cbn; [constructor|].
  destruct (resolve ws name) as [[cls impl]|e]; [|constructor].
  destruct (outcome ws names) as [[os cs] r]. cbn in *.
  by constructor.
Qed.

(** The loop ends normally exactly when every name yields an instance, and
    then the instances are those of the names, in order. *)
Lemma outcome_None names :
  Forall (λ name, ∃ o, built_from ws name o) names →
  (outcome ws names).2 = None ∧
  Forall2 (built_from ws) names (outcome ws names).1.1.
Proof.
  induction 1 as [|name names Hn _ [IHr IH2]]; cbn; [by split; constructor|].
  apply available_resolve in Hn as [[cls impl] Hr]. rewrite Hr.
  destruct (outcome ws names) as [[os cs] r]. cbn in *.
  split; [done|]. constructor; [|done].
  apply resolve_Return in Hr as (ep & rest & ? & ? & ?).
  exists ep, rest, cls, impl. eauto.
Qed.

(** It stops at the first name that yields none, with the exception met
    there. *)
Lemma outcome_Some names name :
  name ∈ names → unavailable ws name →
  ∃ e before name' after,
    (outcome ws names).2 = Some e ∧
    names = before ++ name' :: after ∧
    Forall (λ n, ¬ unavailable ws n) before ∧
    resolve ws name' = Raise e ∧
    length (outcome ws names).1.1 = length before.
Proof.
  induction names as [|n names IH]; [by intros ?%elem_of_nil|].
  intros Hin Hun. cbn.
  destruct (resolve ws n) as [[cls impl]|e] eqn:Hr.
  - apply elem_of_cons in Hin as [->|Hin].
    { apply resolve_Raise in Hun as [e He]. congruence. }
    destruct (IH Hin Hun) as (e & before & name' & after & Hr' & -> & Hb & He & Hl).
    destruct (outcome ws (before ++ name' :: after)) as [[os cs] r].
    cbn in *. exists e, (n :: before), name', after.
    split_and!; [done|done| |done|by rewrite Hl].
    constructor; [|done]. intros [e' He']%resolve_Raise. congruence.
  - exists e, [], n, names. by split_and!.
Qed.

Lemma lookups_app cs1 cs2 : lookups (cs1 ++ cs2) = lookups cs1 ++ lookups cs2.
Proof. unfold lookups. apply omap_app. Qed.

Lemma lookups_calls_of name : lookups (calls_of ws name) = [name].
Proof.
  unfold calls_of, lookups. cbn.
  destruct (iter_entry_points ws group name) as [|ep rest]; [done|].
  cbn. by destruct (ep_load ep).
Qed.

(** The names looked up are the configured ones, as they stand, up to and
    including the one the loop stopped at. *)
Lemma outcome_lookups names :
  lookups (outcome ws names).1.2 =
  take (match (outcome ws names).2 with
        | None => length names
        | Some _ => S (length (outcome ws names).1.1)
        end) names.
Proof.
  induction names as [|name names IH]; [done|]. cbn [outcome].
  destruct (resolve ws name) as [[cls impl]|e].
  - destruct (outcome ws names) as [[os cs] r]. cbn [fst snd] in *.
    rewrite lookups_app, lookups_calls_of, IH. by destruct r.
  - cbn [fst snd length]. by rewrite lookups_calls_of.
Qed.

End OutcomeFacts.

(** Only the first entry found for a name matters. *)
Lemma resolve_head ws ws' name :
  head (iter_entry_points ws group name) =
  head (iter_entry_points ws' group name) →
  resolve ws name = resolve ws' name ∧ calls_of ws name = calls_of ws' name.
Proof.
  unfold resolve, calls_of.
  destruct (iter_entry_points ws group name) as [|ep rest],
           (iter_entry_points ws' group name) as [|ep' rest']; cbn;
    intros [=]; by subst.
Qed.

Lemma outcome_head ws ws' names :
  (∀ name, head (iter_entry_points ws group name) =
           head (iter_entry_points ws' group name)) →
  outcome ws names = outcome ws' names.
Proof.
  intros H. induction names as [|name names IH]; [done|]. cbn [outcome].
  destruct (resolve_head ws ws' name (H name)) as [-> ->].
  by rewrite IH.
Qed.

(** ** Facts about [split] *)

Lemma str_split_nonempty sep s : str_split sep s ≠ [].
Proof.
  destruct s as [|c s]; cbn; [done|].
  destruct (Ascii.eqb c sep); [done|]. by destruct (str_split sep s).
Qed.

Lemma str_join_cons sep c w ws :
  str_join sep (String c w :: ws) = String c (str_join sep (w :: ws)).
Proof. by destruct ws. Qed.

Lemma str_join_split sep s : str_join sep (str_split sep s) = s.
Proof.
  induction s as [|c s IH]; cbn; [done|].
  destruct (Ascii.eqb_spec c sep) as [->|Hne].
  - pose proof (str_split_nonempty sep s) as Hs.
    destruct (str_split sep s) as [|w ws]; [done|]. cbn in *. by rewrite IH.
  - pose proof (str_split_nonempty sep s) as Hs.
    destruct (str_split sep s) as [|w ws]; [done|].
    rewrite str_join_cons. by rewrite IH.
Qed.

Lemma str_split_length sep s :
  length (str_split sep s) = S (str_count sep s).
Proof.
  induction s as [|c s IH]; cbn; [done|].
  destruct (Ascii.eqb c sep); cbn; [by rewrite IH|].
  pose proof (str_split_nonempty sep s) as Hs.
  by destruct (str_split sep s).
Qed.

Lemma str_split_no_sep sep s :
  Forall (λ w, str_contains sep w = false) (str_split sep s).
Proof.
  induction s as [|c s IH]; cbn; [by repeat constructor|].
  destruct (Ascii.eqb c sep) eqn:Hc; [by constructor|].
  destruct (str_split sep s) as [|w ws].
  { constructor; [cbn; by rewrite Hc|constructor]. }
  apply Forall_cons in IH as [Hw Hws]. constructor; [|done].
  cbn. by rewrite Hc.
Qed.

(** ** The accessors *)

(** C6. [get_global_textmap] is total: in every state it returns the
    reference held in [_HTTP_TEXT_FORMAT], raises nothing, and leaves the
    module globals and the world as they were. *)
Theorem get_global_textmap_total (s : State) :
  get_global_textmap s = (Return (_HTTP_TEXT_FORMAT (fst s)), s).
Proof. reflexivity. Qed.

(** C10. [set_global_textmap] rebinds [_HTTP_TEXT_FORMAT] and does nothing
    else: for every address [p], whatever lives there (a propagator, some
    other object, nothing), it returns normally, the new global is [p], and
    the heap, the recorded calls, the log and every object, the old and the
    new propagator included, are left as they were. *)
Theorem set_global_textmap_frame (p : loc) (m : Module) (w : World) :
  set_global_textmap p (m, w) = (Return tt, ({| _HTTP_TEXT_FORMAT := p |}, w)) ∧
  (∀ l, heap (snd (snd (set_global_textmap p (m, w)))) !! l = heap w !! l) ∧
  calls (snd (snd (set_global_textmap p (m, w)))) = calls w ∧
  log (snd (snd (set_global_textmap p (m, w)))) = log w.
Proof. by split_and!. Qed.

Lemma serve_global s r :
  _HTTP_TEXT_FORMAT (fst (serve s r)) = _HTTP_TEXT_FORMAT (fst s) ∧
  heap (snd (serve s r)) = heap (snd s).
Proof.
  destruct r as [|g c ctx|set c ctx]; cbn; [done| |].
  - done.
  - unfold inject, bind, on_module. cbn.
    by destruct (call_inject _ _ _ _ _ _) as [[[]|] ?].
Qed.

Lemma foldl_serve_global rs : ∀ s,
  _HTTP_TEXT_FORMAT (fst (foldl serve s rs)) = _HTTP_TEXT_FORMAT (fst s) ∧
  heap (snd (foldl serve s rs)) = heap (snd s).
Proof.
  induction rs as [|r rs IH]; intros s; cbn; [done|].
  destruct (IH (serve s r)) as [-> ->]. apply serve_global.
Qed.

(** C2. Once [set_global_textmap p] has returned, every later
    [get_global_textmap], whatever reads, extractions and injections come
    in between, returns the address [p] itself; the reference [old] read
    before the override still names the object it named, unchanged. *)
Theorem set_global_textmap_then_get (s : State) (p : loc) (rs : list request) :
  let old := _HTTP_TEXT_FORMAT (fst s) in
  let s1 := snd (set_global_textmap p s) in
  let s2 := foldl serve s1 rs in
  get_global_textmap s = (Return old, s) ∧
  fst (set_global_textmap p s) = Return tt ∧
  get_global_textmap s2 = (Return p, s2) ∧
  heap (snd s2) !! old = heap (snd s) !! old.
Proof.
  cbv zeta.
  destruct (foldl_serve_global rs (snd (set_global_textmap p s))) as [Hg Hh].
  split_and!; [done|done| |].
  - unfold get_global_textmap at 1, gets. by rewrite Hg.
  - by rewrite Hh.
Qed.

(** C4. The module-level [extract] returns what [extract] of the object
    that [get_global_textmap] returns gives on the same getter, carrier and
    optional context, and [inject] runs the [inject] of that same object on
    the caller's carrier and returns nothing of its own; after an override
    it is the new global, and no other object, that is called. *)
Theorem extract_inject_delegate (m : Module) (w : World)
    (g : Getter) (set : Setter) (carrier : Carrier) (context : option Context) :
  let p := _HTTP_TEXT_FORMAT m in
  get_global_textmap (m, w) = (Return p, (m, w)) ∧
  extract g carrier context (m, w) =
    (call_extract (heap w) (recursion_limit w) p g carrier context, (m, w)) ∧
  inject set context ((m, w), carrier) =
    (let (r, carrier') :=
       call_inject (heap w) (recursion_limit w) p set context carrier in
     (r, ((m, w), carrier'))) ∧
  (∀ q, bind (set_global_textmap q) (λ _, extract g carrier context) (m, w) =
        (call_extract (heap w) (recursion_limit w) q g carrier context,
         ({| _HTTP_TEXT_FORMAT := q |}, w))) ∧
  (∀ q, bind (on_module (set_global_textmap q)) (λ _, inject set context)
          ((m, w), carrier) =
        (let (r, carrier') :=
           call_inject (heap w) (recursion_limit w) q set context carrier in
         (r, (({| _HTTP_TEXT_FORMAT := q |}, w), carrier')))).
Proof.
  intros p. split_and!; try done.
  - unfold inject, bind, on_module. cbn. fold p.
    by destruct (call_inject _ _ _ _ _ _) as [[[]|] ?].
  - intros q. unfold inject, bind, on_module. cbn.
    by destruct (call_inject _ _ _ _ _ _) as [[[]|] ?].
Qed.

(** ** Initialization *)

Lemma instances_at (P : string → object → Prop) (h os tl : list object) names :
  Forall2 P names os →
  Forall2 (λ name p, ∃ o, (h ++ os ++ tl) !! p = Some o ∧ P name o ∧ h !! p = None)
    names (seq (length h) (length os)).
Proof.
  intros HP. apply Forall2_same_length_lookup_2.
  { rewrite length_seq. by eapply Forall2_length. }
  intros i name p Hname [-> Hi]%lookup_seq.
  destruct (lookup_lt_is_Some_2 os i Hi) as [o Ho].
  exists o. split_and!.
  - rewrite lookup_app_r by lia.
    replace (length h + i - length h) with i by lia.
    by rewrite lookup_app_l.
  - by eapply Forall2_lookup_lr.
  - apply lookup_ge_None. lia.
Qed.

(** C3. When every configured name has an entry point whose class loads
    and builds an instance, the module body ends normally and
    [_HTTP_TEXT_FORMAT] names a [CompositeHTTPPropagator] whose members
    are, name by name and in the order of the configured list, new
    instances built from the first entry found for the name: one member
    per name, all distinct, none of them an object that existed before. *)
Theorem module_body_builds_composite cfg ws w :
  Forall (λ name, ∃ o, built_from ws name o) (configured_names cfg) →
  ∃ m w' ps,
    module_body cfg ws w = (Return m, w') ∧
    heap w' !! _HTTP_TEXT_FORMAT m = Some (CompositeHTTPPropagator ps) ∧
    Forall2 (λ name p, ∃ o, heap w' !! p = Some o ∧ built_from ws name o ∧
                            heap w !! p = None)
      (configured_names cfg) ps ∧
    NoDup ps ∧
    (∀ l o, heap w !! l = Some o → heap w' !! l = Some o) ∧
    log w' = log w.
Proof.
  intros [Hr H2]%outcome_None. rewrite module_body_eq.
  destruct (outcome ws (configured_names cfg)) as [[os cs] r].
  cbn in Hr, H2. subst r.
  eexists _, _, _. split; [done|]. cbn. split_and!.
  - rewrite lookup_app_r by lia.
    replace (length (heap w) + length os - length (heap w)) with (length os)
      by lia.
    rewrite lookup_app_r by lia. by rewrite Nat.sub_diag.
  - by apply instances_at.
  - apply NoDup_seq.
  - intros l o Hl. rewrite lookup_app_l; [done|]. by eapply lookup_lt_Some.
  - done.
Qed.

(** C1, as amended. When some configured name has no entry point, or its
    entry fails to load, or its class raises when called, the module body
    raises: the exception is the one met at the first such name, no
    global is bound, and no composite is created; the objects added to the
    heap are the instances built for the names before it.  The failure is
    logged, once, when the exception derives from [Exception] (as the
    [StopIteration] of an empty lookup does); an exception outside
    [Exception] passes the handler and leaves the log as it was. *)
Theorem module_body_all_or_nothing cfg ws w name :
  name ∈ configured_names cfg → unavailable ws name →
  ∃ e w' before name' after os,
    module_body cfg ws w = (Raise e, w') ∧
    configured_names cfg = before ++ name' :: after ∧
    Forall (λ n, ¬ unavailable ws n) before ∧
    resolve ws name' = Raise e ∧
    (iter_entry_points ws group name' = [] → e = StopIteration) ∧
    log w' = (if isinstance_Exception e
              then log w ++ [failure_record e] else log w) ∧
    heap w' = heap w ++ os ∧ Forall is_Instance os ∧
    length os = length before.
Proof.
  intros Hin Hun.
  destruct (outcome_Some ws _ _ Hin Hun)
    as (e & before & name' & after & Hr & Hn & Hb & He & Hl).
  pose proof (outcome_instances ws (configured_names cfg)) as Hos.
  rewrite module_body_eq.
  destruct (outcome ws (configured_names cfg)) as [[os cs] r].
  cbn in Hr, Hl, Hos. subst r.
  eexists e, _, before, name', after, os. split; [reflexivity|].
  cbn. split_and!; try done.
  intros Hnil. unfold resolve in He. rewrite Hnil in He. congruence.
Qed.

(** C5. With no value supplied for [PROPAGATORS], the names are
    [tracecontext] then [baggage], the module body runs as it does under
    the explicit value ["tracecontext,baggage"], and, when both names can
    be built, the global is a composite of exactly two members: the
    instance for [tracecontext] first, the instance for [baggage] second. *)
Theorem module_body_default_names cfg ws w :
  cfg !! "PROPAGATORS" = None →
  configured_names cfg = ["tracecontext"; "baggage"] ∧
  module_body cfg ws w =
    module_body {["PROPAGATORS" := "tracecontext,baggage"]} ws w ∧
  ((∃ o, built_from ws "tracecontext" o) → (∃ o, built_from ws "baggage" o) →
   ∃ m w' a b oa ob,
     module_body cfg ws w = (Return m, w') ∧
     heap w' !! _HTTP_TEXT_FORMAT m = Some (CompositeHTTPPropagator [a; b]) ∧
     heap w' !! a = Some oa ∧ built_from ws "tracecontext" oa ∧
     heap w' !! b = Some ob ∧ built_from ws "baggage" ob ∧ a ≠ b).
Proof.
  intros Hcfg.
  assert (configured_names cfg = ["tracecontext"; "baggage"]) as Hnames.
  { unfold configured_names, Configuration_get. by rewrite Hcfg. }
  split; [done|]. split.
  { rewrite !module_body_eq, Hnames. done. }
  intros Ha Hb.
  assert (Forall (λ name, ∃ o, built_from ws name o) (configured_names cfg))
    as Hall by (rewrite Hnames; repeat constructor; done).
  apply outcome_None in Hall as [Hr H2]. rewrite module_body_eq.
  destruct (outcome ws (configured_names cfg)) as [[os cs] r].
  cbn in Hr, H2. subst r. rewrite Hnames in H2.
  apply Forall2_cons_inv_l in H2 as (oa & os1 & Hoa & H2 & ->).
  apply Forall2_cons_inv_l in H2 as (ob & os2 & Hob & H2 & ->).
  apply Forall2_nil_inv_l in H2 as ->.
  eexists {| _HTTP_TEXT_FORMAT := length (heap w) + 2 |}, _,
    (length (heap w)), (S (length (heap w))), oa, ob.
  split; [reflexivity|]. cbn. split_and!; try done.
  - rewrite lookup_app_r by lia.
    by replace (length (heap w) + 2 - length (heap w)) with 2 by lia.
  - rewrite lookup_app_r by lia. by rewrite Nat.sub_diag.
  - rewrite lookup_app_r by lia.
    by replace (S (length (heap w)) - length (heap w)) with 1 by lia.
Qed.

Lemma iter_entry_points_elem ws grp name ep :
  ep ∈ iter_entry_points ws grp name → ep ∈ ws ∧ ep_name ep = name.
Proof.
  unfold iter_entry_points. induction ws as [|ep' ws IH]; cbn.
  { by intros ?%elem_of_nil. }
  unfold ep_matches at 1.
  destruct (bool_decide (ep_group ep' = grp)) eqn:Hg; cbn;
    [destruct (bool_decide (name = ep_name ep')) eqn:Hn; cbn|].
  - intros [->|H]%elem_of_cons.
    + split; [apply elem_of_cons; by left|].
      by apply bool_decide_eq_true in Hn.
    + destruct (IH H). split; [apply elem_of_cons; by right|done].
  - intros H. destruct (IH H). split; [apply elem_of_cons; by right|done].
  - intros H. destruct (IH H). split; [apply elem_of_cons; by right|done].
Qed.

Lemma iter_entry_points_empty_name ws grp :
  (∀ ep, ep ∈ ws → ep_name ep ≠ "") → iter_entry_points ws grp "" = [].
Proof.
  intros Hws. destruct (iter_entry_points ws grp "") as [|ep rest] eqn:Hi;
    [done|].
  destruct (iter_entry_points_elem ws grp "" ep) as [Hin Hname].
  { rewrite Hi. apply elem_of_cons. by left. }
  by destruct (Hws ep Hin).
Qed.

(** C8. The configured string is cut at its commas and nothing more:
    joining the names with commas gives the string back, so no blank is
    trimmed and no empty name dropped, and there is one name more than
    there are commas.  The names handed to [iter_entry_points] are these
    very strings, in order, up to the one where the body stops.  In a
    working set whose entry points all have a name, the empty string
    configures the single name [""], its lookup finds nothing, and the
    body raises [StopIteration] after logging the failure. *)
Theorem configured_names_verbatim ws w :
  (∀ ep, ep ∈ ws → ep_name ep ≠ "") →
  (∀ cfg,
     let v := Configuration_get cfg "PROPAGATORS" "tracecontext,baggage" in
     str_join comma (configured_names cfg) = v ∧
     length (configured_names cfg) = S (str_count comma v) ∧
     Forall (λ name, str_contains comma name = false) (configured_names cfg)) ∧
  (∀ cfg r w', module_body cfg ws w = (r, w') →
     ∃ k, 0 < k ∧
       lookups (calls w') = lookups (calls w) ++ take k (configured_names cfg) ∧
       (is_Return r → k = length (configured_names cfg))) ∧
  configured_names {["PROPAGATORS" := " b3 , baggage"]} = [" b3 "; " baggage"] ∧
  configured_names {["PROPAGATORS" := ""]} = [""] ∧
  ∃ w', module_body {["PROPAGATORS" := ""]} ws w = (Raise StopIteration, w') ∧
        lookups (calls w') = lookups (calls w) ++ [""] ∧
        log w' = log w ++ [failure_record StopIteration] ∧
        heap w' = heap w.
Proof.
  intros Hws. split_and!.
  - intros cfg v. split_and!.
    + apply str_join_split.
    + apply str_split_length.
    + apply str_split_no_sep.
  - intros cfg r w'. rewrite module_body_eq.
    pose proof (outcome_lookups ws (configured_names cfg)) as Hl.
    pose proof (str_split_nonempty comma
      (Configuration_get cfg "PROPAGATORS" "tracecontext,baggage")) as Hne.
    fold (configured_names cfg) in Hne.
    destruct (outcome ws (configured_names cfg)) as [[os cs] [e|]];
      cbn [fst snd] in Hl; intros [= <- <-]; cbn [calls];
      rewrite lookups_app, Hl.
    + exists (S (length os)). split_and!; [lia|done|done].
    + exists (length (configured_names cfg)). split_and!; [|done|done].
      destruct (configured_names cfg); [done|cbn; lia].
  - done.
  - done.
  - rewrite module_body_eq.
    change (configured_names {["PROPAGATORS" := ""]}) with [""].
    cbn. unfold resolve, calls_of.
    rewrite (iter_entry_points_empty_name ws group Hws). cbn.
    eexists. split; [reflexivity|]. cbn. split_and!; try done.
    + by rewrite lookups_app.
    + by rewrite app_nil_r.
Qed.

Lemma loads_app cs1 cs2 : loads (cs1 ++ cs2) = loads cs1 ++ loads cs2.
Proof. unfold loads. apply omap_app. Qed.

Lemma instantiations_app cs1 cs2 :
  instantiations (cs1 ++ cs2) = instantiations cs1 ++ instantiations cs2.
Proof. unfold instantiations. apply omap_app. Qed.

Lemma calls_of_trace ws name :
  loads (calls_of ws name) = ep_target <$> omap (first_entry ws) [name] ∧
  instantiations (calls_of ws name) = qualname <$> omap (first_class ws) [name].
Proof.
  unfold calls_of, first_class, first_entry, loads, instantiations.
  destruct (iter_entry_points ws group name) as [|ep rest] eqn:Hi;
    cbn; rewrite ?Hi; cbn; [done|].
  by destruct (ep_load ep).
Qed.

(** Every load is the load of the first entry of a name looked up, and
    every class called is the class such a load returned. *)
Lemma outcome_trace ws names :
  loads (outcome ws names).1.2
  = ep_target <$> omap (first_entry ws) (lookups (outcome ws names).1.2) ∧
  instantiations (outcome ws names).1.2
  = qualname <$> omap (first_class ws) (lookups (outcome ws names).1.2).
Proof.
  induction names as [|name names [IHl IHi]]; [done|]. cbn [outcome].
  destruct (calls_of_trace ws name) as [Hl Hi].
  destruct (resolve ws name) as [[cls impl]|e].
  - destruct (outcome ws names) as [[os cs] r]. cbn [fst snd] in *.
    rewrite loads_app, instantiations_app, lookups_app, lookups_calls_of.
    rewrite !omap_app, !fmap_app. by rewrite Hl, Hi, IHl, IHi.
  - cbn [fst snd]. by rewrite lookups_calls_of.
Qed.

(** C9. Of the entry points found for a name, only the first is used.  In
    every run of the module body, the entry points loaded are the first
    entries of the names looked up, each once and in order, and the
    classes called are the classes these loads returned.  When every name
    can be built, the body returns and each member of the composite is the
    instance of the class loaded from the first entry of its name.  The
    other entries count for nothing: the body gives the same result, and
    leaves the same world, in any working set whose lookups have the same
    first entries. *)
Theorem module_body_first_entry_only cfg ws w :
  (∃ r w' looked,
     module_body cfg ws w = (r, w') ∧
     looked = take (length looked) (configured_names cfg) ∧
     (is_Return r → looked = configured_names cfg) ∧
     lookups (calls w') = lookups (calls w) ++ looked ∧
     loads (calls w') =
       loads (calls w) ++ (ep_target <$> omap (first_entry ws) looked) ∧
     instantiations (calls w') =
       instantiations (calls w) ++ (qualname <$> omap (first_class ws) looked)) ∧
  (Forall (λ name, ∃ o, built_from ws name o) (configured_names cfg) →
   ∃ m w' ps,
     module_body cfg ws w = (Return m, w') ∧
     loads (calls w') =
       loads (calls w) ++
       (ep_target <$> omap (first_entry ws) (configured_names cfg)) ∧
     length (omap (first_entry ws) (configured_names cfg))
       = length (configured_names cfg) ∧
     heap w' !! _HTTP_TEXT_FORMAT m = Some (CompositeHTTPPropagator ps) ∧
     Forall2 (λ name p, ∃ ep cls impl,
                first_entry ws name = Some ep ∧ ep_load ep = Return cls ∧
                construct cls = Return impl ∧
                heap w' !! p = Some (Instance (qualname cls) impl))
       (configured_names cfg) ps) ∧
  (∀ ws', (∀ name, first_entry ws name = first_entry ws' name) →
          module_body cfg ws w = module_body cfg ws' w).
Proof.
  pose proof (outcome_trace ws (configured_names cfg)) as [Hloads Hinst].
  pose proof (outcome_lookups ws (configured_names cfg)) as Hlook.
  split_and!.
  - rewrite module_body_eq.
    destruct (outcome ws (configured_names cfg)) as [[os cs] r].
    cbn [fst snd] in *.
    assert (lookups cs = take (length (lookups cs)) (configured_names cfg))
      as Hprefix.
    { rewrite Hlook, length_take.
      match goal with |- take ?k _ = _ =>
        destruct (Nat.min_spec k (length (configured_names cfg)))
          as [[? ->]|[? ->]]; [done|by rewrite !take_ge by lia]
      end. }
    destruct r as [e|].
    + eexists _, _, (lookups cs). split; [reflexivity|]. cbn [calls].
      rewrite lookups_app, loads_app, instantiations_app, Hloads, Hinst.
      by split_and!.
    + eexists _, _, (lookups cs). split; [reflexivity|]. cbn [calls].
      rewrite lookups_app, loads_app, instantiations_app, Hloads, Hinst.
      split_and!; try done.
      intros _. rewrite Hlook. by rewrite firstn_all.
  - intros Hall.
    assert (length (omap (first_entry ws) (configured_names cfg))
            = length (configured_names cfg)) as Hlen.
    { clear -Hall. induction Hall as [|name names Hn _ IH]; [done|].
      destruct Hn as (o & ep & rest & cls & impl & Hi & _).
      cbn. unfold first_entry at 1. rewrite Hi. cbn. by rewrite IH. }
    apply outcome_None in Hall as [Hr H2]. rewrite module_body_eq.
    destruct (outcome ws (configured_names cfg)) as [[os cs] r].
    cbn [fst snd] in *. subst r.
    eexists _, _, _. split; [reflexivity|].
    cbn [calls heap _HTTP_TEXT_FORMAT]. split_and!.
    + rewrite loads_app, Hloads, Hlook. by rewrite firstn_all.
    + done.
    + rewrite lookup_app_r by lia.
      replace (length (heap w) + length os - length (heap w)) with (length os)
        by lia.
      rewrite lookup_app_r by lia. by rewrite Nat.sub_diag.
    + eapply Forall2_impl;
        [exact (instances_at (built_from ws) (heap w) os
                  [CompositeHTTPPropagator (seq (length (heap w)) (length os))]
                  _ H2)|].
      intros name p (o & Hp & (ep & rest & cls & impl & Hi & Hl & Hc & ->) & _).
      exists ep, cls, impl. unfold first_entry. rewrite Hi. by split_and!.
  - intros ws' Hhead.
    by rewrite !module_body_eq, (outcome_head ws ws' _ Hhead).
Qed.

(** ** The composite on a miss *)

Lemma call_extract_S h d self g carrier context :
  call_extract h (S d) self g carrier context =
  match h !! self with
  | Some (Instance _ impl) =>
      match tmp_extract impl g carrier context with
      | Return c => Return (Some c)
      | Raise e => Raise e
      end
  | Some (CompositeHTTPPropagator ps) =>
      Composite_extract (λ p ctx, call_extract h d p g carrier ctx) ps context
  | Some (Other _) | None => Raise AttributeError
  end.
Proof. reflexivity. Qed.

Lemma Composite_extract_unchanged
    (member : loc → option Context → result (option Context)) ps context :
  Forall (λ p, member p context = Return context) ps →
  Composite_extract member ps context = Return context.
Proof.
  induction 1 as [|p ps Hp _ IH]; [done|].
  cbn [Composite_extract]. by rewrite Hp.
Qed.



(** ** The theorems at work on the samples *)

Import Samples.

Lemma stub_tolerates_absent key : tolerates_absent (stub key).
Proof.
  intros g carrier ctx Hmiss. cbn.
  rewrite Hmiss; [done|]. apply elem_of_cons. by left.
Qed.

Lemma installed_built name target cls impl rest :
  iter_entry_points installed group name = entry name target (Return cls) :: rest →
  construct cls = Return impl →
  ∃ o, built_from installed name o.
Proof.
  intros Hi Hc. exists (Instance (qualname cls) impl).
  by exists (entry name target (Return cls)), rest, cls, impl.
Qed.

Lemma default_names_built :
  Forall (λ name, ∃ o, built_from installed name o) (configured_names ∅).
Proof.
  change (configured_names ∅) with ["tracecontext"; "baggage"].
  repeat constructor.
  - by eapply (installed_built "tracecontext" _ TraceContext).
  - by eapply (installed_built "baggage" _ Baggage).
Qed.

Lemma installed_names_nonempty ep : ep ∈ installed → ep_name ep ≠ "".
Proof.
  unfold installed. intros Hin.
  repeat (apply elem_of_cons in Hin as [->|Hin]; [done|]).
  by apply elem_of_nil in Hin.
Qed.

Lemma installed_plain_heads name :
  head (iter_entry_points installed group name) =
  head (iter_entry_points plain group name).
Proof.
  unfold iter_entry_points, installed, plain, ep_matches. cbn.
  repeat case_bool_decide; cbn; congruence.
Qed.

Lemma module_body_builds_composite_witness :
  Forall (λ name, ∃ o, built_from installed name o) (configured_names ∅) ∧
  ∃ m w' ps,
    module_body ∅ installed fresh_world = (Return m, w') ∧
    heap w' !! _HTTP_TEXT_FORMAT m = Some (CompositeHTTPPropagator ps) ∧
    Forall2 (λ name p, ∃ o, heap w' !! p = Some o ∧ built_from installed name o ∧
                            heap fresh_world !! p = None)
      (configured_names ∅) ps ∧
    NoDup ps ∧
    (∀ l o, heap fresh_world !! l = Some o → heap w' !! l = Some o) ∧
    log w' = log fresh_world.
Proof.
  split; [exact default_names_built|].
  exact (module_body_builds_composite ∅ installed fresh_world
           default_names_built).
Defined.

Lemma module_body_all_or_nothing_witness :
  " baggage" ∈ configured_names blank_after_comma ∧
  unavailable installed " baggage" ∧
  ∃ e w', module_body blank_after_comma installed fresh_world = (Raise e, w') ∧
          log w' = (if isinstance_Exception e
                    then log fresh_world ++ [failure_record e]
                    else log fresh_world).
Proof.
  assert (" baggage" ∈ configured_names blank_after_comma) as Hin.
  { change (configured_names blank_after_comma) with ["b3"; " baggage"].
    apply elem_of_cons. right. apply elem_of_cons. by left. }
  assert (unavailable installed " baggage") as Hun by (by left).
  split; [exact Hin|]. split; [exact Hun|].
  destruct (module_body_all_or_nothing blank_after_comma installed fresh_world
              " baggage" Hin Hun)
    as (e & w' & before & name' & after & os & Hm & _ & _ & _ & _ & Hl & _).
  exists e, w'. by split.
Defined.

(** C1, as stated, fails: the class found for [tracecontext] raises
    [KeyboardInterrupt] when called; the module body raises it in turn, but
    [except Exception] does not match it and no record reaches the log. *)
Lemma constructor_interrupt_not_logged :
  "tracecontext" ∈ configured_names ∅ ∧
  (∃ ep rest cls,
     iter_entry_points interrupted group "tracecontext" = ep :: rest ∧
     ep_load ep = Return cls ∧ construct cls = Raise KeyboardInterrupt) ∧
  ∃ w', module_body ∅ interrupted fresh_world = (Raise KeyboardInterrupt, w') ∧
        log w' = [] ∧
        ¬ (∃ e, log w' = log fresh_world ++ [failure_record e]).
Proof.
  split.
  { change (configured_names ∅) with ["tracecontext"; "baggage"].
    apply elem_of_cons. by left. }
  split.
  { by eexists _, _, Interrupted. }
  eexists. split; [reflexivity|]. cbn. split; [done|].
  by intros [e He].
Qed.

Lemma module_body_default_names_witness :
  (∅ : Configuration) !! "PROPAGATORS" = None ∧
  configured_names ∅ = ["tracecontext"; "baggage"] ∧
  ∃ m w' a b,
    module_body ∅ installed fresh_world = (Return m, w') ∧
    heap w' !! _HTTP_TEXT_FORMAT m = Some (CompositeHTTPPropagator [a; b]).
Proof.
  split; [apply lookup_empty|].
  destruct (module_body_default_names ∅ installed fresh_world
              (lookup_empty "PROPAGATORS"))
    as (Hnames & _ & Hbuilt).
  split; [exact Hnames|].
  destruct Hbuilt as (m & w' & a & b & oa & ob & Hm & Hc & _).
  - by eapply (installed_built "tracecontext" _ TraceContext).
  - by eapply (installed_built "baggage" _ Baggage).
  - by exists m, w', a, b.
Defined.

Lemma configured_names_verbatim_witness :
  (∀ ep, ep ∈ installed → ep_name ep ≠ "") ∧
  ∃ w', module_body {["PROPAGATORS" := ""]} installed fresh_world
          = (Raise StopIteration, w') ∧
        lookups (calls w') = lookups (calls fresh_world) ++ [""] ∧
        log w' = log fresh_world ++ [failure_record StopIteration] ∧
        heap w' = heap fresh_world.
Proof.
  split; [exact installed_names_nonempty|].
  exact (proj2 (proj2 (proj2 (proj2
    (configured_names_verbatim installed fresh_world
       installed_names_nonempty))))).
Defined.

Lemma module_body_first_entry_only_witness :
  length (iter_entry_points installed group "baggage") = 2 ∧
  Forall (λ name, ∃ o, built_from installed name o) (configured_names ∅) ∧
  (∀ name, first_entry installed name = first_entry plain name) ∧
  (∃ m w' ps,
     module_body ∅ installed fresh_world = (Return m, w') ∧
     loads (calls w') =
       loads (calls fresh_world) ++
       (ep_target <$> omap (first_entry installed) (configured_names ∅)) ∧
     length (omap (first_entry installed) (configured_names ∅))
       = length (configured_names ∅) ∧
     heap w' !! _HTTP_TEXT_FORMAT m = Some (CompositeHTTPPropagator ps) ∧
     Forall2 (λ name p, ∃ ep cls impl,
                first_entry installed name = Some ep ∧
                ep_load ep = Return cls ∧ construct cls = Return impl ∧
                heap w' !! p = Some (Instance (qualname cls) impl))
       (configured_names ∅) ps) ∧
  module_body ∅ installed fresh_world = module_body ∅ plain fresh_world.
Proof.
  destruct (module_body_first_entry_only ∅ installed fresh_world)
    as (_ & Hbuilt & Hsame).
  split; [reflexivity|]. split; [exact default_names_built|].
  split; [exact installed_plain_heads|].
  split; [exact (Hbuilt default_names_built)|].
  exact (Hsame plain installed_plain_heads).
Defined.





(** *** Runs on the two-stub composite *)

(** An empty carrier and an empty context: the context comes back empty. *)
Example extract_empty_carrier :
  fst (extract dict_getter ∅ (Some ∅) ab_state) = Return (Some ∅).
Proof. reflexivity. Qed.

(** A carrier holding only [a]: the context gains [a] and no [b]. *)
Example extract_a_only :
  fst (extract dict_getter {["a" := ["1"]]} (Some ∅) ab_state)
  = Return (Some {["a" := "1"]}).
Proof. vm_compute. reflexivity. Qed.

(** Both keys of the context are written into an empty carrier. *)
Example inject_a_and_b :
  inject dict_setter (Some {["a" := "1"; "b" := "2"]}) (ab_state, ∅)
  = (Return tt, (ab_state, {["a" := ["1"]; "b" := ["2"]]})).
Proof. vm_compute. reflexivity. Qed.

(** After an override with the stub [B] alone, [a] is no longer read. *)
Example extract_after_override :
  fst (bind (set_global_textmap 1)
         (λ _, extract dict_getter {["a" := ["1"]]} (Some ∅)) ab_state)
  = Return (Some ∅).
Proof. reflexivity. Qed.

(** An object that is no propagator is accepted by the override and only
    fails when it is called. *)
Example override_with_any_object :
  let s := ({| _HTTP_TEXT_FORMAT := 0 |},
            {| heap := [Other "None"]; calls := []; log := [];
               recursion_limit := 1000 |}) in
  fst (set_global_textmap 0 ab_state) = Return tt ∧
  fst (extract dict_getter ∅ None s) = Raise AttributeError.
Proof. split; reflexivity. Qed.

(** A composite that contains itself exhausts the stack. *)
Example extract_cyclic_composite :
  fst (extract dict_getter ∅ None
         ({| _HTTP_TEXT_FORMAT := 0 |},
          {| heap := [CompositeHTTPPropagator [0]]; calls := []; log := [];
             recursion_limit := 50 |}))
  = Raise RecursionError.
Proof. reflexivity. Qed.

(** ** Further properties of the module *)

(** *** The configured string *)

Lemma str_split_append sep a b :
  str_split sep (String.append a (String sep b))
  = str_split sep a ++ str_split sep b.
Proof.
  induction a as [|c a IH].
  - change (String.append "" (String sep b)) with (String sep b).
    cbn [str_split]. by rewrite Ascii.eqb_refl.
  - change (String.append (String c a) (String sep b))
      with (String c (String.append a (String sep b))).
    cbn [str_split]. destruct (Ascii.eqb c sep); [by rewrite IH|].
    rewrite IH. pose proof (str_split_nonempty sep a) as Ha.
    by destruct (str_split sep a).
Qed.

Lemma str_split_whole sep s :
  str_contains sep s = false → str_split sep s = [s].
Proof.
  induction s as [|c s IH]; cbn; [done|].
  intros [Hc Hs]%orb_false_elim. rewrite Hc. by rewrite IH.
Qed.

Lemma str_split_join sep names :
  names ≠ [] → Forall (λ name, str_contains sep name = false) names →
  str_split sep (str_join sep names) = names.
Proof.
  intros Hne Hall. induction Hall as [|name names Hname Hall IH]; [done|].
  destruct names as [|name' names].
  - by apply str_split_whole.
  - change (str_join sep (name :: name' :: names))
      with (String.append name (String sep (str_join sep (name' :: names)))).
    rewrite str_split_append, (str_split_whole _ _ Hname), IH; done.
Qed.

Lemma configured_names_singleton v :
  configured_names {["PROPAGATORS" := v]} = str_split comma v.
Proof.
  unfold configured_names, Configuration_get. by rewrite lookup_singleton_eq.
Qed.

(** X1. Every non-empty list of names without a comma can be configured:
    with [PROPAGATORS] set to the names joined by commas, the names the
    module body iterates over are that list, unchanged and in order. *)
Theorem configured_names_of_join (names : list string) :
  names ≠ [] →
  Forall (λ name, str_contains comma name = false) names →
  configured_names {["PROPAGATORS" := str_join comma names]} = names.
Proof.
  intros Hne Hall. rewrite configured_names_singleton.
  by apply str_split_join.
Qed.

(** X2. Cutting distributes over a comma: the names of [a,b] are the names
    of [a] followed by the names of [b].  So a trailing comma adds an
    empty last name, and a leading comma an empty first one. *)
Theorem configured_names_of_comma (a b : string) :
  configured_names {["PROPAGATORS" := String.append a (String comma b)]}
  = configured_names {["PROPAGATORS" := a]}
    ++ configured_names {["PROPAGATORS" := b]} ∧
  configured_names {["PROPAGATORS" := String.append a ","]}
  = configured_names {["PROPAGATORS" := a]} ++ [""] ∧
  configured_names {["PROPAGATORS" := String comma b]}
  = "" :: configured_names {["PROPAGATORS" := b]}.
Proof.
  rewrite !configured_names_singleton. split_and!.
  - apply str_split_append.
  - apply (str_split_append comma a "").
  - apply (str_split_append comma "" b).
Qed.

(** *** How the loop ends *)

Lemma outcome_length ws names :
  match (outcome ws names).2 with
  | None => length (outcome ws names).1.1 = length names
  | Some _ => length (outcome ws names).1.1 < length names
  end.
Proof.
  induction names as [|name names IH]; [done|]. cbn [outcome].
  destruct (resolve ws name) as [[cls impl]|e]; [|cbn; lia].
  destruct (outcome ws names) as [[os cs] [e|]]; cbn in *; lia.
Qed.

Lemma outcome_built_prefix ws names :
  Forall2 (built_from ws)
    (take (length (outcome ws names).1.1) names) (outcome ws names).1.1.
Proof.
  induction names as [|name names IH]; [constructor|]. cbn [outcome].
  destruct (resolve ws name) as [[cls impl]|e] eqn:Hr; [|constructor].
  destruct (outcome ws names) as [[os cs] r]. cbn in *.
  constructor; [|done].
  apply resolve_Return in Hr as (ep & rest & ? & ? & ?).
  by exists ep, rest, cls, impl.
Qed.

Lemma outcome_None_available ws names :
  (outcome ws names).2 = None →
  Forall (λ name, ∃ o, built_from ws name o) names.
Proof.
  induction names as [|name names IH]; [constructor|]. cbn [outcome].
  destruct (resolve ws name) as [[cls impl]|e] eqn:Hr; [|done].
  destruct (outcome ws names) as [[os cs] r]. cbn in *.
  intros ->. constructor; [|by apply IH].
  apply available_resolve. eauto.
Qed.

(** X3. The module body stops at the first name for which no instance can
    be built.  The names before it have been looked up and their
    instances built, and these stay on the heap; the failing name has been
    looked up; the names after it are never looked up, loaded or built. *)
Theorem module_body_stops_at_first_failure cfg ws w name :
  name ∈ configured_names cfg → unavailable ws name →
  ∃ e w' before name' after os,
    module_body cfg ws w = (Raise e, w') ∧
    configured_names cfg = before ++ name' :: after ∧
    Forall (λ n, ∃ o, built_from ws n o) before ∧
    unavailable ws name' ∧
    heap w' = heap w ++ os ∧ Forall2 (built_from ws) before os ∧
    lookups (calls w') = lookups (calls w) ++ before ++ [name'].
Proof.
  intros Hin Hun.
  destruct (outcome_Some ws _ _ Hin Hun)
    as (e & before & name' & after & Hr & Hn & _ & He & Hl).
  pose proof (outcome_built_prefix ws (configured_names cfg)) as Hos.
  pose proof (outcome_lookups ws (configured_names cfg)) as Hlk.
  rewrite module_body_eq.
  destruct (outcome ws (configured_names cfg)) as [[os cs] r].
  cbn [fst snd] in Hr, Hl, Hos, Hlk. subst r.
  rewrite Hl, Hn in Hos. rewrite take_app_length in Hos.
  eexists e, _, before, name', after, os. split; [reflexivity|].
  cbn [heap calls]. split_and!; try done.
  - eapply Forall2_Forall_l; [exact Hos|].
    apply Forall_true. intros o n Hb. by exists o.
  - apply resolve_Raise. by exists e.
  - rewrite lookups_app, Hlk, Hl, Hn.
    rewrite take_app_ge by lia.
    by replace (S (length before) - length before) with 1 by lia.
Qed.

(** X4. In a working set whose entry points all have a name, a configured
    value with an empty name in it makes the module body raise; a value
    that ends with a comma is one. *)
Theorem module_body_empty_name cfg ws w :
  (∀ ep, ep ∈ ws → ep_name ep ≠ "") →
  ("" ∈ configured_names cfg →
   ∃ e w', module_body cfg ws w = (Raise e, w')) ∧
  (∀ v, ∃ e w',
     module_body {["PROPAGATORS" := String.append v ","]} ws w = (Raise e, w')).
Proof.
  intros Hws.
  assert (∀ cfg', "" ∈ configured_names cfg' →
            ∃ e w', module_body cfg' ws w = (Raise e, w')) as Hfail.
  { intros cfg' Hin.
    assert (unavailable ws "") as Hun
      by (left; by apply iter_entry_points_empty_name).
    destruct (outcome_Some ws _ _ Hin Hun) as (e & _ & _ & _ & Hr & _).
    rewrite module_body_eq.
    destruct (outcome ws (configured_names cfg')) as [[os cs] r].
    cbn in Hr. subst r. by eexists _, _. }
  split; [apply Hfail|].
  intros v. apply Hfail.
  rewrite configured_names_singleton.
  assert (str_split comma (String.append v ",") = str_split comma v ++ [""])
    as -> by apply (str_split_append comma v "").
  apply elem_of_app. right. apply elem_of_cons. by left.
Qed.

(** X5. The module body ends normally exactly when every configured name
    has a first entry that loads and whose class builds an instance; the
    state of the world has no say in it. *)
Theorem module_body_returns_iff cfg ws w :
  is_Return (fst (module_body cfg ws w)) ↔
  Forall (λ name, ∃ o, built_from ws name o) (configured_names cfg).
Proof.
  rewrite module_body_eq. split.
  - pose proof (outcome_None_available ws (configured_names cfg)) as H.
    destruct (outcome ws (configured_names cfg)) as [[os cs] [e|]]; [done|].
    intros _. by apply H.
  - intros [Hr _]%outcome_None.
    destruct (outcome ws (configured_names cfg)) as [[os cs] r].
    cbn in Hr. by subst r.
Qed.

(** X6. When the module body ends normally the composite it installs has
    one member more than the configured value has commas; it is never
    empty. *)
Theorem module_body_member_count cfg ws w m w' :
  module_body cfg ws w = (Return m, w') →
  ∃ ps, heap w' !! _HTTP_TEXT_FORMAT m = Some (CompositeHTTPPropagator ps) ∧
        length ps =
          S (str_count comma
               (Configuration_get cfg "PROPAGATORS" "tracecontext,baggage")) ∧
        ps ≠ [].
Proof.
  rewrite module_body_eq.
  pose proof (outcome_length ws (configured_names cfg)) as Hlen.
  destruct (outcome ws (configured_names cfg)) as [[os cs] [e|]]; [done|].
  cbn [fst snd] in Hlen. intros [= <- <-]. cbn [heap _HTTP_TEXT_FORMAT].
  assert (length os = S (str_count comma
            (Configuration_get cfg "PROPAGATORS" "tracecontext,baggage")))
    as Hos by (rewrite Hlen; apply str_split_length).
  exists (seq (length (heap w)) (length os)). split_and!.
  - rewrite lookup_app_r by lia.
    replace (length (heap w) + length os - length (heap w)) with (length os)
      by lia.
    rewrite lookup_app_r by lia. by rewrite Nat.sub_diag.
  - by rewrite length_seq.
  - rewrite Hos. done.
Qed.

(** *** What the loop never looks at *)

Lemma iter_entry_points_reachable cfg ws name :
  name ∈ configured_names cfg →
  iter_entry_points (List.filter (reachable cfg) ws) group name
  = iter_entry_points ws group name.
Proof.
  intros Hin. unfold iter_entry_points.
  induction ws as [|ep ws IH]; [done|]. cbn [List.filter].
  destruct (reachable cfg ep) eqn:Hr.
  - cbn [List.filter]. by rewrite IH.
  - destruct (ep_matches group name ep) eqn:Hm; [|done].
    unfold ep_matches in Hm. unfold reachable in Hr.
    apply andb_true_iff in Hm as [Hg Hn].
    apply bool_decide_eq_true in Hn. subst name.
    rewrite Hg in Hr. cbn in Hr.
    apply bool_decide_eq_false in Hr. done.
Qed.

Lemma outcome_ext ws ws' names :
  (∀ name, name ∈ names →
     iter_entry_points ws group name = iter_entry_points ws' group name) →
  outcome ws names = outcome ws' names.
Proof.
  induction names as [|name names IH]; intros H; [done|]. cbn [outcome].
  assert (resolve ws name = resolve ws' name ∧
          calls_of ws name = calls_of ws' name) as [-> ->].
  { unfold resolve, calls_of. rewrite (H name); [done|].
    apply elem_of_cons. by left. }
  rewrite IH; [done|]. intros n Hn. apply H, elem_of_cons. by right.
Qed.

(** X7. Only the entry points of the propagator group that carry a
    configured name count: removing all the others from the working set
    changes neither the result of the module body nor the world it leaves,
    so no entry of another group or of an unconfigured name is ever loaded
    or called. *)
Theorem module_body_ignores_unreachable cfg ws w :
  module_body cfg ws w = module_body cfg (List.filter (reachable cfg) ws) w.
Proof.
  rewrite !module_body_eq.
  rewrite (outcome_ext ws (List.filter (reachable cfg) ws)); [done|].
  intros name Hin. symmetry. by apply iter_entry_points_reachable.
Qed.

(** *** The global over time *)

Lemma step_global s e :
  _HTTP_TEXT_FORMAT (fst (step s e)) =
    match e with
    | ev_set_global_textmap p => p
    | ev_request _ => _HTTP_TEXT_FORMAT (fst s)
    end ∧
  heap (snd (step s e)) = heap (snd s).
Proof. destruct e as [p|r]; [done|]. apply serve_global. Qed.

(** X8. Whatever overrides, reads, extractions and injections the module
    has gone through, [get_global_textmap] returns the argument of the
    latest [set_global_textmap], or the global it started with when there
    was no override; none of this changes any object of the heap. *)
Theorem global_is_latest_override (history : list event) (s : State) :
  get_global_textmap (foldl step s history)
  = (Return (latest_override (_HTTP_TEXT_FORMAT (fst s)) history),
     foldl step s history) ∧
  heap (snd (foldl step s history)) = heap (snd s).
Proof.
  revert s. induction history as [|e history IH]; intros s; [done|].
  cbn [foldl]. destruct (IH (step s e)) as [-> ->].
  destruct (step_global s e) as [-> ->].
  unfold latest_override. cbn [foldl]. by destruct e.
Qed.

(** X9. [set_global_textmap] takes an object that is no propagator
    without complaint; the next [extract] or [inject] then raises
    [AttributeError], and leaves the global, the world and the caller's
    carrier as they were. *)
Theorem non_propagator_global_raises (m : Module) (w : World) (p : loc)
    (repr : string) (g : Getter) (set : Setter) (carrier : Carrier)
    (context : option Context) :
  0 < recursion_limit w →
  heap w !! p = Some (Other repr) →
  set_global_textmap p (m, w) = (Return tt, ({| _HTTP_TEXT_FORMAT := p |}, w)) ∧
  extract g carrier context ({| _HTTP_TEXT_FORMAT := p |}, w)
  = (Raise AttributeError, ({| _HTTP_TEXT_FORMAT := p |}, w)) ∧
  inject set context (({| _HTTP_TEXT_FORMAT := p |}, w), carrier)
  = (Raise AttributeError, (({| _HTTP_TEXT_FORMAT := p |}, w), carrier)).
Proof.
  intros Hlimit Hp. split; [done|].
  unfold extract, inject, bind, on_module. cbn.
  destruct (recursion_limit w) as [|d]; [lia|]. cbn. by rewrite Hp.
Qed.

(** *** From the module body to [extract] *)

(** X10. When every configured name builds an instance that honours the
    contract on a miss and owns no key present in the carrier, the module
    body ends normally and the module-level [extract] that follows returns
    the context it is given, the registry being left as it is. *)
Theorem initialised_extract_identity_on_miss cfg ws w
    (g : Getter) (carrier : Carrier) (ctx : Context) :
  2 ≤ recursion_limit w →
  Forall (quiet ws g carrier) (configured_names cfg) →
  ∃ m w', module_body cfg ws w = (Return m, w') ∧
          extract g carrier (Some ctx) (m, w') = (Return (Some ctx), (m, w')).
Proof.
  intros Hlimit Hquiet.
  assert (Forall (λ name, ∃ o, built_from ws name o) (configured_names cfg))
    as Hall.
  { eapply Forall_impl; [exact Hquiet|].
    intros name (cls & impl & Hr & _). apply available_resolve. eauto. }
  apply outcome_None in Hall as [Hr H2]. rewrite module_body_eq.
  destruct (outcome ws (configured_names cfg)) as [[os cs] r].
  cbn [fst snd] in Hr, H2. subst r.
  assert (Forall (λ o, ∃ cls impl, o = Instance cls impl ∧
                    tolerates_absent impl ∧
                    ∀ key, key ∈ fields impl → g carrier key = []) os) as Hos.
  { eapply Forall2_Forall_r; [exact H2|].
    eapply Forall_impl; [exact Hquiet|].
    intros name (cls & impl & Hres & Htol & Hmiss) o
      (ep & rest & cls' & impl' & Hi & Hl & Hc & ->).
    assert (resolve ws name = Return (cls', impl')) as Hres'
      by (apply resolve_Return; eauto).
    rewrite Hres in Hres'. injection Hres' as <- <-. eauto. }
  eexists _, _. split; [reflexivity|].
  unfold extract, bind, get_global_textmap, gets.
  cbn [fst snd _HTTP_TEXT_FORMAT heap recursion_limit].
  destruct (recursion_limit w) as [|[|d]]; [lia|lia|].
  rewrite call_extract_S.
  rewrite lookup_app_r by lia.
  replace (length (heap w) + length os - length (heap w)) with (length os)
    by lia.
  rewrite lookup_app_r by lia. rewrite Nat.sub_diag. cbn [lookup list_lookup].
  rewrite Composite_extract_unchanged; [done|].
  apply Forall_lookup_2. intros i p [-> Hi]%lookup_seq.
  destruct (lookup_lt_is_Some_2 os i Hi) as [o Ho].
  destruct (Forall_lookup_1 _ _ _ _ Hos Ho)
    as (cls & impl & -> & Htol & Hmiss).
  rewrite call_extract_S.
  rewrite lookup_app_r by lia.
  replace (length (heap w) + i - length (heap w)) with i by lia.
  rewrite lookup_app_l by done. rewrite Ho.
  by rewrite (Htol g carrier ctx Hmiss).
Qed.

(** *** The further properties on the samples *)

Lemma default_names_quiet :
  Forall (quiet installed dict_getter ∅) (configured_names ∅).
Proof.
  change (configured_names ∅) with ["tracecontext"; "baggage"].
  repeat constructor.
  - exists TraceContext, (stub "traceparent"). split; [reflexivity|].
    split; [apply stub_tolerates_absent|]. intros key _.
    unfold dict_getter. by rewrite lookup_empty.
  - exists Baggage, (stub "baggage"). split; [reflexivity|].
    split; [apply stub_tolerates_absent|]. intros key _.
    unfold dict_getter. by rewrite lookup_empty.
Qed.

Lemma configured_names_of_join_witness :
  ["b3"; " tracecontext"; ""] ≠ [] ∧
  configured_names {["PROPAGATORS" := str_join comma ["b3"; " tracecontext"; ""]]}
  = ["b3"; " tracecontext"; ""].
Proof.
  split; [done|].
  apply configured_names_of_join; [done|].
  repeat constructor.
Defined.

Lemma module_body_stops_at_first_failure_witness :
  " baggage" ∈ configured_names blank_after_comma ∧
  unavailable installed " baggage" ∧
  ∃ e w' before name' after,
    module_body blank_after_comma installed fresh_world = (Raise e, w') ∧
    configured_names blank_after_comma = before ++ name' :: after ∧
    lookups (calls w') = lookups (calls fresh_world) ++ before ++ [name'].
Proof.
  assert (" baggage" ∈ configured_names blank_after_comma) as Hin.
  { change (configured_names blank_after_comma) with ["b3"; " baggage"].
    apply elem_of_cons. right. apply elem_of_cons. by left. }
  assert (unavailable installed " baggage") as Hun by (by left).
  split; [exact Hin|]. split; [exact Hun|].
  destruct (module_body_stops_at_first_failure blank_after_comma installed
              fresh_world " baggage" Hin Hun)
    as (e & w' & before & name' & after & os & Hm & Hn & _ & _ & _ & _ & Hl).
  by exists e, w', before, name', after.
Defined.

Lemma module_body_empty_name_witness :
  (∀ ep, ep ∈ installed → ep_name ep ≠ "") ∧
  ∃ e w', module_body {["PROPAGATORS" := String.append "b3" ","]}
            installed fresh_world = (Raise e, w').
Proof.
  split; [exact installed_names_nonempty|].
  exact (proj2 (module_body_empty_name ∅ installed fresh_world
                  installed_names_nonempty) "b3").
Defined.

Lemma module_body_member_count_witness :
  module_body ∅ installed fresh_world
  = (Return {| _HTTP_TEXT_FORMAT := 2 |},
     snd (module_body ∅ installed fresh_world)) ∧
  ∃ ps, heap (snd (module_body ∅ installed fresh_world)) !! 2
        = Some (CompositeHTTPPropagator ps) ∧
        length ps = 2 ∧ ps ≠ [].
Proof.
  split; [reflexivity|].
  exact (module_body_member_count ∅ installed fresh_world
           {| _HTTP_TEXT_FORMAT := 2 |}
           (snd (module_body ∅ installed fresh_world)) eq_refl).
Defined.

Lemma non_propagator_global_raises_witness :
  0 < recursion_limit with_none ∧
  heap with_none !! 3 = Some (Other "None") ∧
  extract dict_getter ∅ None ({| _HTTP_TEXT_FORMAT := 3 |}, with_none)
  = (Raise AttributeError, ({| _HTTP_TEXT_FORMAT := 3 |}, with_none)).
Proof.
  assert (0 < recursion_limit with_none) as Hlimit by (cbn; lia).
  split; [exact Hlimit|]. split; [reflexivity|].
  exact (proj1 (proj2 (non_propagator_global_raises
                         {| _HTTP_TEXT_FORMAT := 2 |} with_none 3 "None"
                         dict_getter dict_setter ∅ None Hlimit eq_refl))).
Defined.

Lemma initialised_extract_identity_on_miss_witness :
  2 ≤ recursion_limit fresh_world ∧
  Forall (quiet installed dict_getter ∅) (configured_names ∅) ∧
  ∃ m w', module_body ∅ installed fresh_world = (Return m, w') ∧
          extract dict_getter ∅ (Some {["user" := "alice"]}) (m, w')
          = (Return (Some {["user" := "alice"]}), (m, w')).
Proof.
  assert (2 ≤ recursion_limit fresh_world) as Hlimit by (cbn; lia).
  split; [exact Hlimit|]. split; [exact default_names_quiet|].
  exact (initialised_extract_identity_on_miss ∅ installed fresh_world
           dict_getter ∅ {["user" := "alice"]} Hlimit default_names_quiet).
Defined.

(** Entries of another group and plug-ins nobody configures are passed
    over: the crowded installation initializes as the plain one does. *)
Example module_body_crowded :
  module_body ∅ crowded fresh_world = module_body ∅ plain fresh_world.
Proof. reflexivity. Qed.
